(** * mm/mmu_context.c: a kernel thread borrowing an address space

    Shallow embedding of [use_mm] and [unuse_mm].  The two routines are
    straight-line code over the calling task ([current]) and the reference
    counts of the address spaces; they are embedded in a small
    state-and-error monad that also records, for every primitive the code
    calls, the event together with the machine state in which it was
    issued.  Ordering properties (what happens under the lock, where the
    barriers sit) are properties of that record. *)

From stdpp Require Import base decidable option list gmap fin_maps.
From Stdlib Require Import ZArith Lia.

Local Open Scope Z_scope.

(** ** Data model *)

(** An address space is named by the identity of its [struct mm_struct];
    a [struct mm_struct *] is such a name or [NULL]. *)
Abbreviation mm_id := positive (only parsing).
Abbreviation mm_ptr := (option positive) (only parsing).

(** Modelled from the spec: [struct mm_struct] is declared in
    linux/mm_types.h, which is not part of the sources.  The one attribute
    the two routines depend on is "a reference count"; the spec gives it no
    width, so it is an integer here. *)
Record mm_struct := mk_mm { mm_count : Z }.

(** The part of [struct task_struct] the two routines read and write. *)
Record task_struct := mk_task {
  mm : mm_ptr;          (* tsk->mm: the attached space *)
  active_mm : mm_ptr;   (* tsk->active_mm: the retained space *)
  alloc_lock : bool     (* tsk->alloc_lock, taken by task_lock() *)
}.

(** The machine: the calling task and the live [mm_struct] objects.  An
    identity missing from [heap] is an object that has been freed. *)
Record kstate := mk_kstate {
  current : task_struct;
  heap : gmap positive mm_struct
}.

(** Every primitive the two routines call. *)
Inductive event :=
| EvTaskLock
| EvTaskUnlock
| EvMmgrab (p : mm_ptr)
| EvMmdrop (p : mm_ptr)
| EvFree (m : mm_id)                 (* __mmdrop: the count reached zero *)
| EvStoreActiveMm (p : mm_ptr)       (* tsk->active_mm = p *)
| EvStoreMm (p : mm_ptr)             (* tsk->mm = p *)
| EvMembarrierUpdate (p : mm_ptr)    (* membarrier_update_current_mm(p) *)
| EvSwitchMm (prev next : mm_ptr)    (* switch_mm(prev, next, tsk) *)
| EvFinishArchPostLockSwitch
| EvSmpMb
| EvSmpMbAfterSpinlock
| EvSyncMmRss (p : mm_ptr)
| EvEnterLazyTlb (p : mm_ptr).

Global Instance event_eq_dec : EqDecision event.
Proof. solve_decision. Defined.

(** An event is recorded with the state in which it was issued. *)
Abbreviation trace := (list (event * kstate)) (only parsing).

Inductive fault :=
| NullDeref       (* a NULL mm_struct pointer is dereferenced *)
| UseAfterFree    (* a freed mm_struct is dereferenced *)
| Deadlock.       (* task_lock() on a lock the task already holds *)

Global Instance fault_eq_dec : EqDecision fault.
Proof. solve_decision. Defined.

(** ** The monad *)

Inductive outcome (A : Type) :=
| Done (a : A) (s : kstate) (tr : trace)
| Oops (f : fault) (s : kstate) (tr : trace).
Arguments Done {A} a s tr.
Arguments Oops {A} f s tr.

Definition M (A : Type) : Type := kstate -> outcome A.

Definition ret {A} (a : A) : M A := fun s => Done a s [].

Definition bind {A B} (c : M A) (k : A -> M B) : M B :=
  fun s =>
    match c s with
    | Done a s1 t1 =>
        match k a s1 with
        | Done b s2 t2 => Done b s2 (t1 ++ t2)
        | Oops f s2 t2 => Oops f s2 (t1 ++ t2)
        end
    | Oops f s1 t1 => Oops f s1 t1
    end.

Definition final_state {A} (o : outcome A) : kstate :=
  match o with Done _ s _ | Oops _ s _ => s end.
Definition trace_of {A} (o : outcome A) : trace :=
  match o with Done _ _ tr | Oops _ _ tr => tr end.
Definition completed {A} (o : outcome A) : bool :=
  match o with Done _ _ _ => true | Oops _ _ _ => false end.

Declare Scope kern_scope.
Delimit Scope kern_scope with kern.
Notation "x <- c ;; k" := (bind c (fun x => k))
  (at level 100, c at next level, right associativity) : kern_scope.
Notation "c ;; k" := (bind c (fun _ => k))
  (at level 100, right associativity) : kern_scope.
Local Open Scope kern_scope.

Definition emit (e : event) : M unit := fun s => Done tt s [(e, s)].
Definition oops {A} (f : fault) : M A := fun s => Oops f s [].
Definition get_current : M task_struct := fun s => Done (current s) s [].
Definition set_current (t : task_struct) : M unit :=
  fun s => Done tt (mk_kstate t (heap s)) [].
Definition get_heap : M (gmap positive mm_struct) := fun s => Done (heap s) s [].
Definition set_heap (h : gmap positive mm_struct) : M unit :=
  fun s => Done tt (mk_kstate (current s) h) [].

(** ** Primitives *)

(** [task_lock(tsk)] is [spin_lock(&tsk->alloc_lock)]: not recursive. *)
Definition task_lock : M unit :=
  emit EvTaskLock ;;
  t <- get_current ;;
  if alloc_lock t then oops Deadlock
  else set_current (mk_task (mm t) (active_mm t) true).

Definition task_unlock : M unit :=
  emit EvTaskUnlock ;;
  t <- get_current ;;
  set_current (mk_task (mm t) (active_mm t) false).

Definition read_active_mm : M mm_ptr :=
  t <- get_current ;; ret (active_mm t).

Definition store_active_mm (p : mm_ptr) : M unit :=
  emit (EvStoreActiveMm p) ;;
  t <- get_current ;;
  set_current (mk_task (mm t) p (alloc_lock t)).

Definition store_mm (p : mm_ptr) : M unit :=
  emit (EvStoreMm p) ;;
  t <- get_current ;;
  set_current (mk_task p (active_mm t) (alloc_lock t)).

(** Modelled from the spec: [mmgrab] is declared in linux/sched/mm.h, which
    is not part of the sources.  "acquire increments the count".  The
    pointer is dereferenced, so it has to name a live object. *)
Definition mmgrab (p : mm_ptr) : M unit :=
  emit (EvMmgrab p) ;;
  match p with
  | None => oops NullDeref
  | Some m =>
      h <- get_heap ;;
      match h !! m with
      | None => oops UseAfterFree
      | Some o => set_heap (<[m := mk_mm (mm_count o + 1)]> h)
      end
  end.

(** Modelled from the spec: [mmdrop] is declared in linux/sched/mm.h, which
    is not part of the sources.  "release decrements it and, on reaching
    zero, destroys the object". *)
Definition mmdrop (p : mm_ptr) : M unit :=
  emit (EvMmdrop p) ;;
  match p with
  | None => oops NullDeref
  | Some m =>
      h <- get_heap ;;
      match h !! m with
      | None => oops UseAfterFree
      | Some o =>
          if decide (mm_count o - 1 = 0)
          then emit (EvFree m) ;; set_heap (delete m h)
          else set_heap (<[m := mk_mm (mm_count o - 1)]> h)
      end
  end.

(** The remaining collaborators live outside this file; a call is recorded
    and has no effect on the task's two pointers or on the counts. *)
Definition membarrier_update_current_mm (p : mm_ptr) : M unit :=
  emit (EvMembarrierUpdate p).
Definition switch_mm (prev next : mm_ptr) : M unit := emit (EvSwitchMm prev next).
Definition finish_arch_post_lock_switch : M unit := emit EvFinishArchPostLockSwitch.
Definition smp_mb : M unit := emit EvSmpMb.
Definition smp_mb__after_spinlock : M unit := emit EvSmpMbAfterSpinlock.
Definition sync_mm_rss (p : mm_ptr) : M unit := emit (EvSyncMmRss p).
Definition enter_lazy_tlb (p : mm_ptr) : M unit := emit (EvEnterLazyTlb p).

(** ** The two routines *)

(** [arch_hook] says whether the platform defines
    [finish_arch_post_lock_switch] (the [#ifdef] in [use_mm]). *)
Definition use_mm (arch_hook : bool) (mm : mm_ptr) : M unit :=
  task_lock ;;
  active_mm <- read_active_mm ;;
  (if decide (active_mm <> mm)
   then mmgrab mm ;; store_active_mm mm
   else ret tt) ;;
  store_mm mm ;;
  membarrier_update_current_mm mm ;;
  switch_mm active_mm mm ;;
  task_unlock ;;
  (if arch_hook then finish_arch_post_lock_switch else ret tt) ;;
  if decide (active_mm <> mm)
  then mmdrop active_mm
  else smp_mb.

Definition unuse_mm (mm : mm_ptr) : M unit :=
  task_lock ;;
  smp_mb__after_spinlock ;;
  sync_mm_rss mm ;;
  store_mm None ;;
  membarrier_update_current_mm None ;;
  enter_lazy_tlb mm ;;
  task_unlock.

(** A sequence of calls made by one context. *)
Inductive call :=
| CallUseMm (p : mm_ptr)
| CallUnuseMm (p : mm_ptr).

Definition do_call (arch_hook : bool) (c : call) : M unit :=
  match c with
  | CallUseMm p => use_mm arch_hook p
  | CallUnuseMm p => unuse_mm p
  end.

Fixpoint run (arch_hook : bool) (cs : list call) : M unit :=
  match cs with
  | [] => ret tt
  | c :: cs' => do_call arch_hook c ;; run arch_hook cs'
  end.

(** ** Observations *)

Definition events (tr : trace) : list event := map fst tr.

(** The arguments of the [mmgrab], [mmdrop] and [switch_mm] calls of a
    trace, in program order. *)
Definition grabbed (tr : trace) : list mm_ptr :=
  omap (fun e => match e with EvMmgrab p => Some p | _ => None end) (events tr).
Definition dropped (tr : trace) : list mm_ptr :=
  omap (fun e => match e with EvMmdrop p => Some p | _ => None end) (events tr).
Definition switched (tr : trace) : list (mm_ptr * mm_ptr) :=
  omap (fun e => match e with EvSwitchMm a b => Some (a, b) | _ => None end)
       (events tr).

(** How often [p] occurs in a list of pointers. *)
Definition times (p : mm_ptr) (l : list mm_ptr) : nat :=
  length (filter (eq p) l).

(** [mm->mm_count] as a number: a freed object has no references. *)
Definition refs (s : kstate) (x : mm_id) : Z :=
  match heap s !! x with
  | Some o => mm_count o
  | None => 0
  end.

(** The reference the task's [active_mm] field stands for. *)
Definition holds (t : task_struct) (x : mm_id) : Z :=
  if decide (active_mm t = Some x) then 1 else 0.

(** The references on [x] that belong to the calling context in [s], when
    it started in [s0] and nobody else touched the counts: the count now,
    less the references the others held at the start. *)
Definition attributable (s0 s : kstate) (x : mm_id) : Z :=
  refs s x - (refs s0 x - holds (current s0) x).

(** [precedes a b l]: [a] occurs in [l] and [b] occurs later. *)
Inductive precedes {A} (a b : A) : list A -> Prop :=
| precedes_here l : In b l -> precedes a b (a :: l)
| precedes_later x l : precedes a b l -> precedes a b (x :: l).

(** Modelled from the spec: which primitives order memory is decided by
    headers that are not part of the sources.  "release must itself act as
    a full memory barrier"; [smp_mb] and [smp_mb__after_spinlock] are the
    explicit full barriers. *)
Definition is_full_barrier (e : event) : bool :=
  match e with
  | EvMmdrop _ | EvSmpMb | EvSmpMbAfterSpinlock => true
  | _ => false
  end.

(** The lock as the context sees it when an event is issued. *)
Definition locked_at (x : event * kstate) : bool := alloc_lock (current (snd x)).

(** Sample states: a kernel thread that was lent space 1 by the scheduler
    (spaces 1, 2 and 3 are live), and one that has no [active_mm]. *)
Definition sample_heap : gmap positive mm_struct :=
  <[1%positive := mk_mm 1]> (<[2%positive := mk_mm 2]> (<[3%positive := mk_mm 1]> ∅)).
Definition kthread : kstate :=
  mk_kstate (mk_task None (Some 1%positive) false) sample_heap.
Definition bare_kthread : kstate :=
  mk_kstate (mk_task None None false) sample_heap.


(** * Proofs *)

(** ** The monad *)

Lemma bind_done_inv {A B} (c : M A) (k : A -> M B) s b s2 t :
  bind c k s = Done b s2 t ->
  exists a s1 t1 t2,
    c s = Done a s1 t1 /\ k a s1 = Done b s2 t2 /\ t = t1 ++ t2.
Proof.
  unfold bind. destruct (c s) as [a s1 t1|]; [|discriminate].
  destruct (k a s1) as [b' s2' t2|] eqn:Hk; [|discriminate].
  intros [= <- <- <-]. by exists a, s1, t1, t2.
Qed.

Lemma run_cons_inv hook c cs s s' tr :
  run hook (c :: cs) s = Done tt s' tr ->
  exists s1 t1 t2,
    do_call hook c s = Done tt s1 t1 /\ run hook cs s1 = Done tt s' t2 /\
    tr = t1 ++ t2.
Proof.
  intros H. apply bind_done_inv in H as ([] & s1 & t1 & t2 & H1 & H2 & ->).
  by exists s1, t1, t2.
Qed.

(** ** Symbolic execution of the two routines

    [use_mm] has two ways to complete: [active_mm == mm] (nothing is
    dereferenced), or [active_mm != mm] with both objects live.  The
    tactics below run a completed call and leave its final state and its
    trace as explicit terms. *)

Ltac kstep H :=
  cbv [use_mm unuse_mm task_lock task_unlock read_active_mm store_active_mm
       store_mm mmgrab mmdrop membarrier_update_current_mm switch_mm
       finish_arch_post_lock_switch smp_mb smp_mb__after_spinlock sync_mm_rss
       enter_lazy_tlb bind ret emit oops get_current set_current get_heap
       set_heap current heap mm active_mm alloc_lock app] in H.

Ltac kstep_goal :=
  cbv [use_mm unuse_mm task_lock task_unlock read_active_mm store_active_mm
       store_mm mmgrab mmdrop membarrier_update_current_mm switch_mm
       finish_arch_post_lock_switch smp_mb smp_mb__after_spinlock sync_mm_rss
       enter_lazy_tlb bind ret emit oops get_current set_current get_heap
       set_heap current heap mm active_mm alloc_lock app].

Ltac done_eq H :=
  kstep H; try discriminate H; try (injection H as <- <-).

Ltac run_unuse_mm H :=
  match type of H with
  | unuse_mm ?p ?s = Done _ _ _ =>
      destruct s as [[?a ?q [|]] ?h]; done_eq H
  end.

Ltac run_use_mm H :=
  match type of H with
  | use_mm ?hook ?p ?s = Done _ _ _ =>
      let Hm := fresh "Hm" in
      let Hq := fresh "Hq" in
      let Hne := fresh "Hne" in
      destruct s as [[?a ?q [|]] ?h]; kstep H; [discriminate H|];
      destruct (decide (q <> p)) as [Hne|Hne]; kstep H;
      [ destruct p as [?m|]; kstep H; [|discriminate H];
        destruct (h !! m) as [?o|] eqn:Hm; kstep H; [|discriminate H];
        destruct hook; kstep H;
        (destruct q as [?r|]; kstep H; [|discriminate H]);
        rewrite lookup_insert_ne in H by congruence;
        (destruct (h !! r) as [?o|] eqn:Hq; kstep H; [|discriminate H]);
        case_decide; done_eq H
      | apply dec_stable in Hne; subst q;
        destruct hook; done_eq H ]
  end.

(** Reads of [mm_count] through inserts and deletes. *)
Ltac refs_solve :=
  unfold attributable, refs, holds; cbn [heap current active_mm];
  repeat first [rewrite lookup_insert | rewrite lookup_delete];
  repeat case_decide; simplify_eq;
  repeat match goal with
  | H : ?h !! ?k = _ |- context [?h !! ?k] => rewrite H
  end; cbn [mm_count];
  try lia; try done.

(** Walks through the recorded events of an explicit trace. *)
Ltac each_entry Hin tac :=
  cbn in Hin;
  repeat (destruct Hin as [[= <- <-]|Hin]; [tac|]); try done.

(** ** Completion *)

Lemma unuse_mm_completes p s :
  alloc_lock (current s) = false ->
  exists s' tr, unuse_mm p s = Done tt s' tr.
Proof. destruct s as [[a q l] h]. cbn. intros ->. by eexists _, _. Qed.

Lemma use_mm_same_completes hook p s :
  alloc_lock (current s) = false ->
  active_mm (current s) = p ->
  exists s' tr, use_mm hook p s = Done tt s' tr.
Proof.
  destruct s as [[a q l] h]. cbn. intros -> ->. kstep_goal.
  destruct (decide (p <> p)) as [|_]; [done|].
  destruct hook; by eexists _, _.
Qed.

Lemma use_mm_other_completes hook m r s :
  alloc_lock (current s) = false ->
  active_mm (current s) = Some r ->
  r <> m ->
  is_Some (heap s !! r) ->
  is_Some (heap s !! m) ->
  exists s' tr, use_mm hook (Some m) s = Done tt s' tr.
Proof.
  destruct s as [[a q l] h]. cbn. intros -> -> Hne [o' Hr] [o Hm].
  kstep_goal.
  destruct (decide (Some r <> Some m)) as [_|[]]; [|congruence].
  rewrite Hm. kstep_goal. destruct hook; kstep_goal.
  all: rewrite lookup_insert_ne by congruence; rewrite Hr.
  all: case_decide; by eexists _, _.
Qed.

Lemma call_unlocks hook c s s' tr :
  do_call hook c s = Done tt s' tr -> alloc_lock (current s') = false.
Proof.
  destruct c as [p|p]; cbn; intros H; [run_use_mm H|run_unuse_mm H]; done.
Qed.

(** ** Reference counts *)

Lemma use_mm_refs hook p s s' tr :
  use_mm hook p s = Done tt s' tr ->
  (forall x,
     refs s' x - holds (current s') x = refs s x - holds (current s) x) /\
  (forall e si, In (e, si) tr -> forall x, refs s x <= refs si x).
Proof.
  intros H. run_use_mm H.
  all: split; [intros x; refs_solve|].
  all: intros e si Hin x; each_entry Hin refs_solve.
Qed.

Lemma unuse_mm_refs p s s' tr :
  unuse_mm p s = Done tt s' tr ->
  (forall x,
     refs s' x - holds (current s') x = refs s x - holds (current s) x) /\
  (forall e si, In (e, si) tr -> forall x, refs s x <= refs si x).
Proof.
  intros H. run_unuse_mm H.
  split; [intros x; refs_solve|].
  intros e si Hin x; each_entry Hin refs_solve.
Qed.

Lemma run_refs hook cs : forall s s' tr,
  run hook cs s = Done tt s' tr ->
  (forall x,
     refs s' x - holds (current s') x = refs s x - holds (current s) x) /\
  (forall e si, In (e, si) tr ->
     forall x, refs s x - holds (current s) x <= refs si x).
Proof.
  induction cs as [|c cs IH]; intros s s' tr H.
  - injection H as <- <-. split; [done|]. intros e si [].
  - apply run_cons_inv in H as (s1 & t1 & t2 & Hc & Hr & ->).
    apply IH in Hr as [Heq Hmid].
    assert ((forall x, refs s1 x - holds (current s1) x
                       = refs s x - holds (current s) x) /\
            (forall e si, In (e, si) t1 -> forall x, refs s x <= refs si x))
      as [Heq1 Hmid1].
    { destruct c; [eapply use_mm_refs|eapply unuse_mm_refs]; exact Hc. }
    split.
    + intros x. rewrite Heq. apply Heq1.
    + intros e si Hin x. apply in_app_or in Hin as [Hin|Hin].
      * specialize (Hmid1 e si Hin x). unfold holds. case_decide; lia.
      * rewrite <- Heq1. by eapply Hmid.
Qed.

(** ** What one call does *)

Lemma use_mm_post hook p s s' tr :
  use_mm hook p s = Done tt s' tr ->
  mm (current s') = p /\ active_mm (current s') = p /\
  alloc_lock (current s') = false /\ alloc_lock (current s) = false.
Proof. intros H. run_use_mm H; done. Qed.

Lemma unuse_mm_post p s s' tr :
  unuse_mm p s = Done tt s' tr ->
  mm (current s') = None /\
  active_mm (current s') = active_mm (current s) /\
  alloc_lock (current s') = false /\ alloc_lock (current s) = false /\
  heap s' = heap s /\
  grabbed tr = [] /\ dropped tr = [] /\ switched tr = [].
Proof. intros H. run_unuse_mm H. repeat split; reflexivity. Qed.

(** [mmgrab] and [mmdrop] are called exactly when [active_mm != mm], once
    each, on [mm] and on the old [active_mm]; [switch_mm] is always called
    once, with the old [active_mm] as [prev]. *)
Lemma use_mm_calls hook p s s' tr :
  use_mm hook p s = Done tt s' tr ->
  grabbed tr = (if decide (active_mm (current s) = p) then [] else [p]) /\
  dropped tr =
    (if decide (active_mm (current s) = p) then []
     else [active_mm (current s)]) /\
  switched tr = [(active_mm (current s), p)].
Proof.
  intros H. run_use_mm H; cbn [current active_mm].
  all: case_decide; try congruence.
  all: repeat split; reflexivity.
Qed.

(** With [active_mm == mm] the call touches no reference count at all. *)
Lemma use_mm_same hook p s s' tr :
  use_mm hook p s = Done tt s' tr ->
  active_mm (current s) = p ->
  heap s' = heap s /\ (forall e si, In (e, si) tr -> heap si = heap s).
Proof.
  intros H E. run_use_mm H; cbn in E; try congruence.
  all: split; [done|]; intros e si Hin; each_entry Hin idtac.
Qed.

(** With [active_mm != mm] one reference moves from the old space to the
    new one. *)
Lemma use_mm_other hook p s s' tr :
  use_mm hook p s = Done tt s' tr ->
  active_mm (current s) <> p ->
  exists m r,
    p = Some m /\ active_mm (current s) = Some r /\ r <> m /\
    refs s' m = refs s m + 1 /\ refs s' r = refs s r - 1 /\
    (forall x, x <> m -> x <> r -> refs s' x = refs s x).
Proof.
  intros H E. run_use_mm H; cbn in E; try congruence.
  all: exists m, r; repeat split; try done; try congruence.
  all: try (intros x Hxm Hxr); refs_solve.
Qed.

Lemma times_app p l1 l2 : times p (l1 ++ l2) = (times p l1 + times p l2)%nat.
Proof. unfold times. by rewrite filter_app, length_app. Qed.

Lemma grabbed_app t1 t2 : grabbed (t1 ++ t2) = grabbed t1 ++ grabbed t2.
Proof. unfold grabbed, events. by rewrite map_app, omap_app. Qed.

Lemma dropped_app t1 t2 : dropped (t1 ++ t2) = dropped t1 ++ dropped t2.
Proof. unfold dropped, events. by rewrite map_app, omap_app. Qed.

Lemma times_one p : times p [p] = 1%nat.
Proof. unfold times. by rewrite filter_cons_True. Qed.

Lemma times_other p q : p <> q -> times p [q] = 0%nat.
Proof. intros. unfold times. by rewrite filter_cons_False. Qed.

(** The counts move by what the context itself grabbed and dropped. *)
Lemma call_ledger hook c s s' tr :
  do_call hook c s = Done tt s' tr ->
  forall x,
    refs s' x = refs s x + Z.of_nat (times (Some x) (grabbed tr))
                - Z.of_nat (times (Some x) (dropped tr)).
Proof.
  destruct c as [p|p]; cbn [do_call]; intros H x.
  - destruct (use_mm_calls _ _ _ _ _ H) as (Hg & Hd & _). rewrite Hg, Hd.
    case_decide as E.
    + destruct (use_mm_same _ _ _ _ _ H E) as [Hh _].
      unfold refs. rewrite Hh. cbn. lia.
    + destruct (use_mm_other _ _ _ _ _ H E)
        as (m & r & -> & Hr & Hrm & Hup & Hdown & Hframe).
      rewrite Hr.
      destruct (decide (x = m)) as [->|Hxm];
        [|destruct (decide (x = r)) as [->|Hxr]].
      * rewrite times_one, times_other by congruence. lia.
      * rewrite times_one, times_other by congruence. lia.
      * rewrite !times_other by congruence. rewrite Hframe by done. lia.
  - apply unuse_mm_post in H as (_ & _ & _ & _ & Hh & -> & -> & _).
    unfold refs. rewrite Hh. cbn. lia.
Qed.

Lemma run_ledger hook cs : forall s s' tr,
  run hook cs s = Done tt s' tr ->
  forall x,
    refs s' x = refs s x + Z.of_nat (times (Some x) (grabbed tr))
                - Z.of_nat (times (Some x) (dropped tr)).
Proof.
  induction cs as [|c cs IH]; intros s s' tr H x.
  - injection H as <- <-. cbn. lia.
  - apply run_cons_inv in H as (s1 & t1 & t2 & Hc & Hr & ->).
    rewrite (IH _ _ _ Hr x), (call_ledger _ _ _ _ _ Hc x).
    rewrite grabbed_app, dropped_app, !times_app. lia.
Qed.

(** C1. Along any completed sequence of [use_mm]/[unuse_mm] calls of one
    context, the references on a space that belong to the context are
    exactly 1 when [active_mm] (the retained space) is that space and 0
    otherwise, in particular when it is absent; and at no recorded point of
    the sequence is that number negative.  That number is the reference
    behind [active_mm] at the start, plus the context's own [mmgrab]s, less
    its own [mmdrop]s. *)
Theorem refcount_follows_active_mm hook cs s0 s tr :
  run hook cs s0 = Done tt s tr ->
  forall x,
    (active_mm (current s) = Some x -> attributable s0 s x = 1) /\
    (active_mm (current s) <> Some x -> attributable s0 s x = 0) /\
    (active_mm (current s) = None -> attributable s0 s x = 0) /\
    0 <= attributable s0 s x /\
    (forall e si, In (e, si) tr -> 0 <= attributable s0 si x) /\
    attributable s0 s x =
      holds (current s0) x + Z.of_nat (times (Some x) (grabbed tr))
      - Z.of_nat (times (Some x) (dropped tr)).
Proof.
  intros H x. pose proof (run_ledger _ _ _ _ _ H x) as Hled.
  apply run_refs in H as [Heq Hmid].
  specialize (Heq x). unfold attributable.
  assert (Hh : holds (current s) x = 1 \/ holds (current s) x = 0)
    by (unfold holds; case_decide; auto).
  repeat split.
  - intros E. unfold holds in Heq at 1. rewrite decide_True in Heq by done. lia.
  - intros E. unfold holds in Heq at 1. rewrite decide_False in Heq by done. lia.
  - intros E. unfold holds in Heq at 1.
    rewrite decide_False in Heq by congruence. lia.
  - lia.
  - intros e si Hin. specialize (Hmid e si Hin x). lia.
  - lia.
Qed.

Lemma refcount_follows_active_mm_witness :
  let cs := [CallUseMm (Some 2%positive); CallUnuseMm (Some 2%positive);
             CallUseMm (Some 3%positive)] in
  let s := final_state (run true cs kthread) in
  attributable kthread s 3 = 1 /\ attributable kthread s 2 = 0 /\
  attributable kthread s 1 = 0.
Proof.
  intros cs s.
  assert (H : run true cs kthread
              = Done tt s (trace_of (run true cs kthread)))
    by (vm_compute; reflexivity).
  split; [|split].
  - apply (proj1 (refcount_follows_active_mm true cs kthread s _ H 3%positive)).
    reflexivity.
  - apply (proj1 (proj2
      (refcount_follows_active_mm true cs kthread s _ H 2%positive))).
    discriminate.
  - apply (proj1 (proj2
      (refcount_follows_active_mm true cs kthread s _ H 1%positive))).
    discriminate.
Defined.

(** ** Sequences of calls *)

(** C2. In [use_mm(A); unuse_mm(A); use_mm(A)] the second [use_mm]
    completes without calling [mmgrab] (or [mmdrop]); no reference count
    changes, and [switch_mm] is called with [prev == next == A] while every
    count is what it was before the call. *)
Theorem attach_detach_attach_same hook a s0 s1 t1 s2 t2 :
  use_mm hook (Some a) s0 = Done tt s1 t1 ->
  unuse_mm (Some a) s1 = Done tt s2 t2 ->
  exists s3 t3,
    use_mm hook (Some a) s2 = Done tt s3 t3 /\
    grabbed t3 = [] /\ dropped t3 = [] /\
    (forall x, refs s3 x = refs s2 x) /\
    switched t3 = [(Some a, Some a)] /\
    (forall e si, In (e, si) t3 -> forall x, refs si x = refs s2 x).
Proof.
  intros H1 H2.
  apply use_mm_post in H1 as (_ & Ha1 & _).
  apply unuse_mm_post in H2 as (_ & Ha2 & Hl2 & _).
  rewrite Ha1 in Ha2.
  destruct (use_mm_same_completes hook (Some a) s2 Hl2 Ha2) as (s3 & t3 & H3).
  exists s3, t3. split; [exact H3|].
  destruct (use_mm_calls _ _ _ _ _ H3) as (Hg & Hd & Hs).
  destruct (use_mm_same _ _ _ _ _ H3 Ha2) as (Hh & Hmid).
  rewrite Ha2 in Hg, Hd, Hs. rewrite decide_True in Hg, Hd by done.
  repeat split; try done.
  - intros x. unfold refs. by rewrite Hh.
  - intros e si Hin x. unfold refs. by rewrite (Hmid e si Hin).
Qed.

Lemma attach_detach_attach_same_witness :
  let o1 := use_mm true (Some 2%positive) kthread in
  let o2 := unuse_mm (Some 2%positive) (final_state o1) in
  exists s3 t3,
    use_mm true (Some 2%positive) (final_state o2) = Done tt s3 t3 /\
    grabbed t3 = [] /\ dropped t3 = [] /\
    (forall x, refs s3 x = refs (final_state o2) x) /\
    switched t3 = [(Some 2%positive, Some 2%positive)] /\
    (forall e si, In (e, si) t3 ->
       forall x, refs si x = refs (final_state o2) x).
Proof.
  intros o1 o2.
  apply (attach_detach_attach_same true 2%positive kthread
           (final_state o1) (trace_of o1) (final_state o2) (trace_of o2));
    vm_compute; reflexivity.
Defined.

(** C8. A second [use_mm(mm)] right after a first one completes, calls
    neither [mmgrab] nor [mmdrop], changes no reference count (it leaves the
    whole state as it found it), and its [switch_mm] call has
    [prev == next]. *)
Theorem attach_twice_no_refcount_change hook p s0 s1 t1 :
  use_mm hook p s0 = Done tt s1 t1 ->
  exists s2 t2,
    use_mm hook p s1 = Done tt s2 t2 /\
    grabbed t2 = [] /\ dropped t2 = [] /\
    (forall x, refs s2 x = refs s1 x) /\
    (forall e si, In (e, si) t2 -> forall x, refs si x = refs s1 x) /\
    (forall prev next, In (prev, next) (switched t2) -> prev = next) /\
    switched t2 = [(p, p)] /\
    s2 = s1.
Proof.
  intros H1.
  apply use_mm_post in H1 as (Hm1 & Ha1 & Hl1 & _).
  destruct (use_mm_same_completes hook p s1 Hl1 Ha1) as (s2 & t2 & H2).
  exists s2, t2. split; [exact H2|].
  destruct (use_mm_calls _ _ _ _ _ H2) as (Hg & Hd & Hs).
  destruct (use_mm_same _ _ _ _ _ H2 Ha1) as (Hh & Hmid).
  destruct (use_mm_post _ _ _ _ _ H2) as (Hm2 & Ha2 & Hl2 & _).
  rewrite Ha1 in Hg, Hd, Hs. rewrite decide_True in Hg, Hd by done.
  repeat split; try done.
  - intros x. unfold refs. by rewrite Hh.
  - intros e si Hin x. unfold refs. by rewrite (Hmid e si Hin).
  - rewrite Hs. intros prev next [[= <- <-]|[]]. done.
  - destruct s1 as [[? ? ?] ?], s2 as [[? ? ?] ?]. cbn in *. congruence.
Qed.

Lemma attach_twice_no_refcount_change_witness :
  let o1 := use_mm false (Some 3%positive) kthread in
  exists s2 t2,
    use_mm false (Some 3%positive) (final_state o1) = Done tt s2 t2 /\
    grabbed t2 = [] /\ dropped t2 = [] /\
    (forall x, refs s2 x = refs (final_state o1) x) /\
    (forall e si, In (e, si) t2 ->
       forall x, refs si x = refs (final_state o1) x) /\
    (forall prev next, In (prev, next) (switched t2) -> prev = next) /\
    switched t2 = [(Some 3%positive, Some 3%positive)] /\
    s2 = final_state o1.
Proof.
  intros o1.
  apply (attach_twice_no_refcount_change false (Some 3%positive) kthread
           (final_state o1) (trace_of o1)).
  vm_compute; reflexivity.
Defined.

(** C7. In [use_mm(A); unuse_mm(A); use_mm(B)] with [B] another space than
    [A], the second [use_mm] calls [mmdrop] exactly once, on [A], and
    [mmgrab] exactly once, on [B]: the count of [A] goes down by one and
    that of [B] up by one.  Over the whole sequence too, [A] is released
    exactly once and [B] acquired exactly once. *)
Theorem attach_detach_attach_other hook a b s0 s1 t1 s2 t2 s3 t3 :
  a <> b ->
  use_mm hook (Some a) s0 = Done tt s1 t1 ->
  unuse_mm (Some a) s1 = Done tt s2 t2 ->
  use_mm hook (Some b) s2 = Done tt s3 t3 ->
  dropped t3 = [Some a] /\ grabbed t3 = [Some b] /\
  refs s3 a = refs s2 a - 1 /\ refs s3 b = refs s2 b + 1 /\
  (forall x, x <> a -> x <> b -> refs s3 x = refs s2 x) /\
  times (Some a) (dropped (t1 ++ t2 ++ t3)) = 1%nat /\
  times (Some b) (grabbed (t1 ++ t2 ++ t3)) = 1%nat.
Proof.
  intros Hab H1 H2 H3.
  destruct (use_mm_calls _ _ _ _ _ H1) as (Hg1 & Hd1 & _).
  apply use_mm_post in H1 as (_ & Ha1 & _).
  apply unuse_mm_post in H2 as (_ & Ha2 & _ & _ & _ & Hg2 & Hd2 & _).
  rewrite Ha1 in Ha2.
  destruct (use_mm_calls _ _ _ _ _ H3) as (Hg3 & Hd3 & _).
  rewrite Ha2 in Hg3, Hd3. rewrite decide_False in Hg3, Hd3 by congruence.
  assert (Hne : active_mm (current s2) <> Some b) by congruence.
  destruct (use_mm_other _ _ _ _ _ H3 Hne)
    as (m & r & [= <-] & Hr & _ & Hup & Hdown & Hframe).
  rewrite Ha2 in Hr. injection Hr as <-.
  repeat split; try done.
  - intros x Hxa Hxb. by apply Hframe.
  - rewrite !dropped_app, !times_app, Hd1, Hd2, Hd3, times_one.
    case_decide; [done|]. by rewrite times_other.
  - rewrite !grabbed_app, !times_app, Hg1, Hg2, Hg3, times_one.
    case_decide; [done|]. rewrite times_other by congruence. done.
Qed.

Lemma attach_detach_attach_other_witness :
  let o1 := use_mm true (Some 2%positive) kthread in
  let o2 := unuse_mm (Some 2%positive) (final_state o1) in
  let o3 := use_mm true (Some 3%positive) (final_state o2) in
  dropped (trace_of o3) = [Some 2%positive] /\
  grabbed (trace_of o3) = [Some 3%positive] /\
  refs (final_state o3) 2 = refs (final_state o2) 2 - 1 /\
  refs (final_state o3) 3 = refs (final_state o2) 3 + 1 /\
  (forall x, x <> 2%positive -> x <> 3%positive ->
     refs (final_state o3) x = refs (final_state o2) x) /\
  times (Some 2%positive)
    (dropped (trace_of o1 ++ trace_of o2 ++ trace_of o3)) = 1%nat /\
  times (Some 3%positive)
    (grabbed (trace_of o1 ++ trace_of o2 ++ trace_of o3)) = 1%nat.
Proof.
  intros o1 o2 o3.
  apply (attach_detach_attach_other true 2%positive 3%positive kthread
           (final_state o1) (trace_of o1) (final_state o2) (trace_of o2)
           (final_state o3) (trace_of o3));
    [discriminate|vm_compute; reflexivity..].
Defined.

(** C6. [unuse_mm] clears [mm] (attached) and leaves [active_mm]
    (retained) as it was, so that it still names the space that was attached
    when the call was made; it calls no [mmdrop] and changes no count.  The
    reference is given up by the next [use_mm] exactly when that call is for
    another space. *)
Theorem unuse_mm_keeps_reference p s s' tr :
  unuse_mm p s = Done tt s' tr ->
  active_mm (current s) = mm (current s) ->
  mm (current s') = None /\
  active_mm (current s') = mm (current s) /\
  active_mm (current s') = active_mm (current s) /\
  dropped tr = [] /\
  (forall x, refs s' x = refs s x) /\
  (forall hook q s2 t2,
     use_mm hook q s' = Done tt s2 t2 ->
     dropped t2 =
       if decide (active_mm (current s) = q) then []
       else [active_mm (current s)]).
Proof.
  intros H Hinv.
  apply unuse_mm_post in H as (Hm & Ha & _ & _ & Hh & _ & Hd & _).
  repeat split; try done; try congruence.
  - intros x. unfold refs. by rewrite Hh.
  - intros hook q s2 t2 H2.
    destruct (use_mm_calls _ _ _ _ _ H2) as (_ & Hd2 & _).
    by rewrite Ha in Hd2.
Qed.

Lemma unuse_mm_keeps_reference_witness :
  let s1 := final_state (use_mm true (Some 2%positive) kthread) in
  let o := unuse_mm (Some 2%positive) s1 in
  mm (current (final_state o)) = None /\
  active_mm (current (final_state o)) = mm (current s1) /\
  active_mm (current (final_state o)) = active_mm (current s1) /\
  dropped (trace_of o) = [] /\
  (forall x, refs (final_state o) x = refs s1 x) /\
  (forall hook q s2 t2,
     use_mm hook q (final_state o) = Done tt s2 t2 ->
     dropped t2 =
       if decide (active_mm (current s1) = q) then []
       else [active_mm (current s1)]).
Proof.
  intros s1 o.
  apply (unuse_mm_keeps_reference (Some 2%positive) s1 (final_state o)
           (trace_of o)); vm_compute; reflexivity.
Defined.

(** ** Order of events *)

Lemma precedes_In_r {A} (a b : A) l : precedes a b l -> In b l.
Proof. induction 1; cbn; auto. Qed.

Lemma precedes_In_l {A} (a b : A) l : precedes a b l -> In a l.
Proof. induction 1; cbn; auto. Qed.

Ltac solve_in := cbn; repeat first [left; reflexivity | right].
Ltac solve_precedes :=
  cbn; repeat first [apply precedes_here; solve_in | apply precedes_later].

(** C3, as the code has it.  The pointer [use_mm] compares with [mm], and
    hands to [switch_mm] as [prev], is [tsk->active_mm], the retained space.
    When it differs from [mm], [mmgrab(mm)] is called once and before the
    stores to [active_mm] and [mm], which both see the incremented count;
    when it equals [mm] there is no [mmgrab] and [active_mm] is not
    written.  Either way both fields name [mm] on return. *)
Theorem use_mm_compares_active_mm hook p s s' tr :
  use_mm hook p s = Done tt s' tr ->
  switched tr = [(active_mm (current s), p)] /\
  (active_mm (current s) <> p ->
     grabbed tr = [p] /\
     precedes (EvMmgrab p) (EvStoreActiveMm p) (events tr) /\
     precedes (EvStoreActiveMm p) (EvStoreMm p) (events tr) /\
     (forall e si, In (e, si) tr ->
        e = EvStoreActiveMm p \/ e = EvStoreMm p ->
        exists m, p = Some m /\ refs si m = refs s m + 1)) /\
  (active_mm (current s) = p ->
     grabbed tr = [] /\ ~ In (EvStoreActiveMm p) (events tr)) /\
  mm (current s') = p /\ active_mm (current s') = p.
Proof.
  intros H.
  destruct (use_mm_calls _ _ _ _ _ H) as (Hg & _ & Hs).
  destruct (use_mm_post _ _ _ _ _ H) as (Hm & Ha & _).
  split; [exact Hs|]. split; [|split; [|done]].
  - intros Hne. rewrite decide_False in Hg by done. split; [exact Hg|].
    clear Hg Hs Hm Ha. run_use_mm H; cbn in Hne; try congruence.
    all: split; [solve_precedes|]; split; [solve_precedes|].
    all: intros e si Hin He; exists m; split; [done|].
    all: each_entry Hin ltac:(first [by destruct He | refs_solve]).
  - intros Heq. rewrite decide_True in Hg by done. split; [exact Hg|].
    clear Hg Hs Hm Ha. run_use_mm H; cbn in Heq; try congruence.
    all: cbn; intros Hin; repeat (destruct Hin as [Hin|Hin]; [done|]); done.
Qed.

Lemma use_mm_compares_active_mm_witness :
  let o := use_mm true (Some 2%positive) kthread in
  switched (trace_of o) = [(Some 1%positive, Some 2%positive)] /\
  grabbed (trace_of o) = [Some 2%positive] /\
  mm (current (final_state o)) = Some 2%positive /\
  active_mm (current (final_state o)) = Some 2%positive.
Proof.
  intros o.
  destruct (use_mm_compares_active_mm true (Some 2%positive) kthread
              (final_state o) (trace_of o))
    as (Hs & Hne & _ & Hm & Ha); [vm_compute; reflexivity|].
  destruct Hne as (Hg & _); [discriminate|].
  exact (conj Hs (conj Hg (conj Hm Ha))).
Defined.

(** C3 as written fails: on a kernel thread whose attached space [tsk->mm]
    is [NULL] and whose [active_mm] is space 1, the attached space differs
    from the argument of [use_mm(1)], yet the call makes no [mmgrab], and
    the [prev] it passes to [switch_mm] is space 1, not the attached
    space. *)
Lemma use_mm_prev_is_not_attached :
  let s := kthread in
  let o := use_mm false (Some 1%positive) s in
  completed o = true /\
  mm (current s) = None /\
  mm (current s) <> Some 1%positive /\
  grabbed (trace_of o) = [] /\
  refs (final_state o) 1 = refs s 1 /\
  switched (trace_of o) = [(Some 1%positive, Some 1%positive)] /\
  switched (trace_of o) <> [(mm (current s), Some 1%positive)].
Proof. vm_compute. repeat split; discriminate. Qed.

(** C4. Every completed call issues a full barrier on the calling context,
    on the right side of the store to [tsk->mm]: [use_mm] after it, by
    [mmdrop(active_mm)] when [active_mm != mm] (and then no [smp_mb]) and by
    [smp_mb] when [active_mm == mm] (and then no [mmdrop]); [unuse_mm]
    before it, by [smp_mb__after_spinlock]. *)
Theorem barrier_on_every_transition hook c s s' tr :
  do_call hook c s = Done tt s' tr ->
  (exists b, is_full_barrier b = true /\ In b (events tr)) /\
  match c with
  | CallUseMm p =>
      (active_mm (current s) <> p ->
         is_full_barrier (EvMmdrop (active_mm (current s))) = true /\
         precedes (EvStoreMm p) (EvMmdrop (active_mm (current s)))
                  (events tr) /\
         ~ In EvSmpMb (events tr)) /\
      (active_mm (current s) = p ->
         is_full_barrier EvSmpMb = true /\
         precedes (EvStoreMm p) EvSmpMb (events tr) /\
         dropped tr = [])
  | CallUnuseMm p =>
      is_full_barrier EvSmpMbAfterSpinlock = true /\
      precedes EvSmpMbAfterSpinlock (EvStoreMm None) (events tr)
  end.
Proof.
  destruct c as [p|p]; cbn [do_call]; intros H.
  - assert (Hcases :
      (active_mm (current s) <> p ->
         precedes (EvStoreMm p) (EvMmdrop (active_mm (current s)))
                  (events tr) /\
         ~ In EvSmpMb (events tr)) /\
      (active_mm (current s) = p ->
         precedes (EvStoreMm p) EvSmpMb (events tr) /\ dropped tr = [])).
    { run_use_mm H; cbn [current active_mm]; split; intros E;
        try congruence; (split; [solve_precedes|]); try reflexivity.
      all: cbn; intros Hin; repeat (destruct Hin as [Hin|Hin]; [done|]); done. }
    destruct Hcases as [Hne Heq]. split.
    + destruct (decide (active_mm (current s) = p)) as [E|E].
      * exists EvSmpMb. split; [done|].
        destruct (Heq E) as [Hp _]. by apply precedes_In_r in Hp.
      * exists (EvMmdrop (active_mm (current s))). split; [done|].
        destruct (Hne E) as [Hp _]. by apply precedes_In_r in Hp.
    + split; intros E; (split; [done|]); auto.
  - run_unuse_mm H. split.
    + exists EvSmpMbAfterSpinlock. split; [done|solve_in].
    + split; [done|solve_precedes].
Qed.

Lemma barrier_on_every_transition_witness :
  let o := do_call true (CallUseMm (Some 2%positive)) kthread in
  (exists b, is_full_barrier b = true /\ In b (events (trace_of o))) /\
  precedes (EvStoreMm (Some 2%positive)) (EvMmdrop (Some 1%positive))
           (events (trace_of o)).
Proof.
  intros o.
  destruct (barrier_on_every_transition true (CallUseMm (Some 2%positive))
              kthread (final_state o) (trace_of o))
    as (Hb & Hne & _); [vm_compute; reflexivity|].
  destruct Hne as (_ & Hp & _); [discriminate|].
  exact (conj Hb Hp).
Defined.

(** C5. A completed [unuse_mm] issues exactly these events, in this order:
    lock, full barrier, statistics flush, store of [NULL] to [tsk->mm],
    membarrier update, lazy-TLB entry, unlock.  The flush sees [tsk->mm]
    as it was at entry (so still [mm] when the caller was attached to
    [mm]); the membarrier update sees it cleared. *)
Theorem unuse_mm_order p s s' tr :
  unuse_mm p s = Done tt s' tr ->
  events tr =
    [EvTaskLock; EvSmpMbAfterSpinlock; EvSyncMmRss p; EvStoreMm None;
     EvMembarrierUpdate None; EvEnterLazyTlb p; EvTaskUnlock] /\
  precedes EvTaskLock EvSmpMbAfterSpinlock (events tr) /\
  precedes EvSmpMbAfterSpinlock (EvSyncMmRss p) (events tr) /\
  precedes (EvSyncMmRss p) (EvStoreMm None) (events tr) /\
  precedes (EvStoreMm None) (EvMembarrierUpdate None) (events tr) /\
  (forall e si, In (e, si) tr ->
     (e = EvSmpMbAfterSpinlock \/ e = EvSyncMmRss p ->
        mm (current si) = mm (current s) /\ locked_at (e, si) = true) /\
     (e = EvMembarrierUpdate None -> mm (current si) = None)) /\
  (mm (current s) = p ->
     forall si, In (EvSyncMmRss p, si) tr -> mm (current si) = p).
Proof.
  intros H. run_unuse_mm H.
  split; [reflexivity|]. do 4 (split; [solve_precedes|]). split.
  - intros e si Hin.
    each_entry Hin ltac:(split; [intros [?|?]|intros ?]; done).
  - cbn. intros <- si Hin.
    repeat (destruct Hin as [Hin|Hin];
            [first [discriminate Hin | by injection Hin as <-]|]); done.
Qed.

Lemma unuse_mm_order_witness :
  let s1 := final_state (use_mm false (Some 2%positive) kthread) in
  let o := unuse_mm (Some 2%positive) s1 in
  events (trace_of o) =
    [EvTaskLock; EvSmpMbAfterSpinlock; EvSyncMmRss (Some 2%positive);
     EvStoreMm None; EvMembarrierUpdate None;
     EvEnterLazyTlb (Some 2%positive); EvTaskUnlock] /\
  (forall si, In (EvSyncMmRss (Some 2%positive), si) (trace_of o) ->
     mm (current si) = Some 2%positive).
Proof.
  intros s1 o.
  destruct (unuse_mm_order (Some 2%positive) s1 (final_state o) (trace_of o))
    as (He & _ & _ & _ & _ & _ & Hmm); [vm_compute; reflexivity|].
  split; [exact He|]. apply Hmm. vm_compute; reflexivity.
Defined.

(** C9. In a completed call the lock is held when [switch_mm],
    [membarrier_update_current_mm] and [sync_mm_rss] are called, and it has
    been released when [finish_arch_post_lock_switch] is called.  In
    [use_mm] the membarrier update and the switch lie between lock and
    unlock, the platform hook (when the platform has one) after the
    unlock; in [unuse_mm] the flush and the membarrier update lie between
    lock and unlock. *)
Theorem lock_scope hook c s s' tr :
  do_call hook c s = Done tt s' tr ->
  (forall x, In x tr ->
     match fst x with
     | EvSwitchMm _ _ | EvMembarrierUpdate _ | EvSyncMmRss _ =>
         locked_at x = true
     | EvFinishArchPostLockSwitch => locked_at x = false
     | _ => True
     end) /\
  match c with
  | CallUseMm p =>
      precedes EvTaskLock (EvMembarrierUpdate p) (events tr) /\
      precedes (EvMembarrierUpdate p) (EvSwitchMm (active_mm (current s)) p)
               (events tr) /\
      precedes (EvSwitchMm (active_mm (current s)) p) EvTaskUnlock
               (events tr) /\
      (hook = true ->
         precedes EvTaskUnlock EvFinishArchPostLockSwitch (events tr)) /\
      (hook = false -> ~ In EvFinishArchPostLockSwitch (events tr))
  | CallUnuseMm p =>
      precedes EvTaskLock (EvSyncMmRss p) (events tr) /\
      precedes (EvSyncMmRss p) (EvMembarrierUpdate None) (events tr) /\
      precedes (EvMembarrierUpdate None) EvTaskUnlock (events tr)
  end.
Proof.
  destruct c as [p|p]; cbn [do_call]; intros H.
  - run_use_mm H; cbn [current active_mm].
    all: split;
      [intros [e si] Hin; each_entry Hin ltac:(exact I || reflexivity)|].
    all: do 3 (split; [solve_precedes|]).
    all: split; [intros ?; first [discriminate | solve_precedes]|].
    all: intros ?; try discriminate.
    all: cbn; intros Hin; repeat (destruct Hin as [Hin|Hin]; [done|]); done.
  - run_unuse_mm H.
    split; [intros [e si] Hin; each_entry Hin ltac:(exact I || reflexivity)|].
    repeat split; solve_precedes.
Qed.

Lemma lock_scope_witness :
  let o := do_call true (CallUseMm (Some 2%positive)) kthread in
  precedes (EvSwitchMm (Some 1%positive) (Some 2%positive)) EvTaskUnlock
           (events (trace_of o)) /\
  precedes EvTaskUnlock EvFinishArchPostLockSwitch (events (trace_of o)).
Proof.
  intros o.
  destruct (lock_scope true (CallUseMm (Some 2%positive)) kthread
              (final_state o) (trace_of o))
    as (_ & _ & _ & Hs & Hh & _); [vm_compute; reflexivity|].
  exact (conj Hs (Hh eq_refl)).
Defined.

(** ** The unguarded release *)

(** C10. [use_mm] releases the old [active_mm] without testing it for
    [NULL].  So when [active_mm != mm], the call completes only if
    [active_mm] was present at entry; with [active_mm] absent it never
    completes, and when it gets as far as the release (the lock was free
    and [mm] is live) it faults right there, dereferencing [NULL] in
    [mmdrop] after having taken the reference on [mm].  With [active_mm]
    present [mmdrop] is never called on [NULL]. *)
Theorem use_mm_needs_active_mm hook p s :
  active_mm (current s) <> p ->
  (forall s' tr,
     use_mm hook p s = Done tt s' tr -> is_Some (active_mm (current s))) /\
  (active_mm (current s) = None -> completed (use_mm hook p s) = false) /\
  (active_mm (current s) = None ->
   alloc_lock (current s) = false ->
   (exists m, p = Some m /\ is_Some (heap s !! m)) ->
   exists s' tr,
     use_mm hook p s = Oops NullDeref s' tr /\
     last (events tr) = Some (EvMmdrop None) /\
     grabbed tr = [p] /\
     active_mm (current s') = p) /\
  (is_Some (active_mm (current s)) ->
   ~ In (EvMmdrop None) (events (trace_of (use_mm hook p s)))).
Proof.
  intros Hne. split; [|split; [|split]].
  - intros s' tr H. destruct (use_mm_other _ _ _ _ _ H Hne)
      as (m & r & _ & -> & _). by eexists.
  - intros E. destruct (use_mm hook p s) as [[] s' tr|] eqn:H; [|done].
    destruct (use_mm_other _ _ _ _ _ H Hne) as (m & r & _ & E' & _).
    congruence.
  - destruct s as [[a q l] h]. cbn. intros -> -> (m & -> & [o Hm]).
    kstep_goal. destruct (decide (None <> Some m)) as [_|[]]; [|done].
    rewrite Hm. destruct hook; kstep_goal; by eexists _, _.
  - destruct s as [[a q l] h]. cbn in *. intros [r ->].
    kstep_goal. destruct l; [cbn; intuition discriminate|].
    destruct (decide (Some r <> p)) as [_|[]]; [|done].
    destruct p as [m|]; [|cbn; intuition discriminate].
    destruct (h !! m) as [o|] eqn:Hm; [|cbn; intuition discriminate].
    destruct hook; kstep_goal.
    all: rewrite lookup_insert_ne by congruence.
    all: destruct (h !! r) as [o'|]; [case_decide|].
    all: cbn; intuition discriminate.
Qed.

Lemma use_mm_needs_active_mm_witness :
  completed (use_mm true (Some 2%positive) bare_kthread) = false /\
  exists s' tr,
    use_mm true (Some 2%positive) bare_kthread = Oops NullDeref s' tr /\
    last (events tr) = Some (EvMmdrop None) /\
    grabbed tr = [Some 2%positive] /\
    active_mm (current s') = Some 2%positive.
Proof.
  destruct (use_mm_needs_active_mm true (Some 2%positive) bare_kthread)
    as (_ & Hc & Hf & _); [discriminate|].
  split; [apply Hc; reflexivity|].
  apply Hf; [reflexivity|reflexivity|].
  exists 2%positive. split; [reflexivity|]. by eexists.
Defined.

(** * Further properties of the two routines *)

(** Runs a call to its outcome, completed or faulted. *)
Ltac end_eq H :=
  kstep H; try discriminate H;
  try (injection H as ? ? ?; subst).

Ltac run_use_mm_oops H :=
  match type of H with
  | use_mm ?hook ?p ?s = Oops _ _ _ =>
      let Hm := fresh "Hm" in
      let Hq := fresh "Hq" in
      let Hne := fresh "Hne" in
      destruct s as [[?a ?q [|]] ?h]; kstep H;
      [ end_eq H
      | destruct (decide (q <> p)) as [Hne|Hne]; kstep H;
        [ destruct p as [?m|]; kstep H;
          [ destruct (h !! m) as [?o|] eqn:Hm; kstep H;
            [ destruct hook; kstep H;
              (destruct q as [?r|]; kstep H;
               [ rewrite lookup_insert_ne in H by congruence;
                 destruct (h !! r) as [?o|] eqn:Hq; kstep H;
                 [ case_decide; end_eq H | end_eq H ]
               | end_eq H ])
            | end_eq H ]
          | end_eq H ]
        | destruct hook; end_eq H ] ]
  end.

Lemma use_mm_done_inv hook p s s' tr :
  use_mm hook p s = Done tt s' tr ->
  alloc_lock (current s) = false /\
  (active_mm (current s) = p \/
   exists m r,
     p = Some m /\ active_mm (current s) = Some r /\ r <> m /\
     is_Some (heap s !! m) /\ is_Some (heap s !! r)).
Proof.
  intros H. run_use_mm H; (split; [done|]); cbn; auto.
  all: right; exists m, r; repeat split; try done; congruence.
Qed.

(** X1. [use_mm] completes exactly when the task lock is free and either
    [active_mm] already is [mm] (then nothing is dereferenced, so [mm] may
    even be [NULL] or stale), or both [mm] and the old [active_mm] are live
    objects. *)
Theorem use_mm_completes_iff hook p s :
  completed (use_mm hook p s) = true <->
  alloc_lock (current s) = false /\
  (active_mm (current s) = p \/
   exists m r,
     p = Some m /\ active_mm (current s) = Some r /\
     is_Some (heap s !! m) /\ is_Some (heap s !! r)).
Proof.
  split.
  - destruct (use_mm hook p s) as [[] s' tr|] eqn:H; [intros _|done].
    apply use_mm_done_inv in H as [Hl [E|(m & r & ? & ? & ? & ? & ?)]].
    + auto.
    + split; [done|]. right. by exists m, r.
  - intros [Hl [E|(m & r & -> & Hr & Hm & Hq)]].
    + destruct (use_mm_same_completes hook p s Hl E) as (s' & tr & ->). done.
    + destruct (decide (r = m)) as [->|Hne].
      * destruct (use_mm_same_completes hook (Some m) s Hl Hr)
          as (s' & tr & ->). done.
      * destruct (use_mm_other_completes hook m r s Hl Hr Hne Hq Hm)
          as (s' & tr & ->). done.
Qed.

(** X2. How [use_mm] fails.  On a held lock it spins at [task_lock] and has
    changed nothing.  A fault in [mmgrab] ([mm] is [NULL] or freed) happens
    under the lock: the lock stays held and the task's pointers and all
    counts are as before.  A fault in [mmdrop] (the old [active_mm] is
    [NULL] or freed) happens after the unlock, when both pointers already
    name [mm] and the reference on [mm] has been taken. *)
Theorem use_mm_faults hook p s f s' tr :
  use_mm hook p s = Oops f s' tr ->
  (alloc_lock (current s) = true /\ f = Deadlock /\ s' = s /\
   events tr = [EvTaskLock]) \/
  (alloc_lock (current s) = false /\ active_mm (current s) <> p /\
   (f = NullDeref /\ p = None \/
    f = UseAfterFree /\ exists m, p = Some m /\ heap s !! m = None) /\
   last (events tr) = Some (EvMmgrab p) /\
   alloc_lock (current s') = true /\
   mm (current s') = mm (current s) /\
   active_mm (current s') = active_mm (current s) /\
   heap s' = heap s) \/
  (alloc_lock (current s) = false /\ active_mm (current s) <> p /\
   (f = NullDeref /\ active_mm (current s) = None \/
    f = UseAfterFree /\
    exists r, active_mm (current s) = Some r /\ heap s !! r = None) /\
   last (events tr) = Some (EvMmdrop (active_mm (current s))) /\
   alloc_lock (current s') = false /\
   mm (current s') = p /\ active_mm (current s') = p /\
   exists m, p = Some m /\ refs s' m = refs s m + 1).
Proof.
  intros H. run_use_mm_oops H; cbn [current heap mm active_mm alloc_lock].
  all: try (left; by repeat split).
  all: try (right; left; repeat split; try done; eauto; fail).
  all: right; right; repeat split; try done; eauto.
  all: try (exists m; split; [done|]; refs_solve).
Qed.

Lemma use_mm_faults_witness :
  let o := use_mm true None kthread in
  alloc_lock (current (final_state o)) = true /\
  last (events (trace_of o)) = Some (EvMmgrab None) /\
  heap (final_state o) = heap kthread.
Proof.
  intros o.
  destruct (use_mm_faults true None kthread NullDeref (final_state o)
              (trace_of o)) as [H|[H|H]]; [vm_compute; reflexivity|..].
  - destruct H as (Hl & _). discriminate Hl.
  - destruct H as (_ & _ & _ & Hlast & Hl & _ & _ & Hh).
    exact (conj Hl (conj Hlast Hh)).
  - destruct H as (_ & _ & [[_ Ha]|[Hf _]] & _); discriminate.
Defined.




(** X5. [unuse_mm] undoes [use_mm] only in part.  On a kernel thread
    ([tsk->mm] is [NULL]) the pair [use_mm(mm); unuse_mm(mm)] gives back the
    state it started from exactly when [active_mm] already was [mm];
    otherwise [active_mm] stays switched to [mm]. *)
Theorem use_unuse_round_trip hook p s s1 t1 s2 t2 :
  mm (current s) = None ->
  use_mm hook p s = Done tt s1 t1 ->
  unuse_mm p s1 = Done tt s2 t2 ->
  (s2 = s <-> active_mm (current s) = p) /\
  active_mm (current s2) = p /\ mm (current s2) = None.
Proof.
  intros Hmm H1 H2.
  destruct (use_mm_post _ _ _ _ _ H1) as (_ & Ha1 & _ & Hl).
  destruct (unuse_mm_post _ _ _ _ H2) as (Hm2 & Ha2 & Hl2 & _ & Hh2 & _).
  rewrite Ha1 in Ha2. split; [|done]. split.
  - intros <-. done.
  - intros E. destruct (use_mm_same _ _ _ _ _ H1 E) as [Hh1 _].
    destruct s as [[? ? ?] ?], s2 as [[? ? ?] ?]. cbn in *. congruence.
Qed.

Lemma use_unuse_round_trip_witness :
  let o1 := use_mm true (Some 1%positive) kthread in
  let o2 := unuse_mm (Some 1%positive) (final_state o1) in
  final_state o2 = kthread.
Proof.
  intros o1 o2.
  apply (use_unuse_round_trip true (Some 1%positive) kthread
           (final_state o1) (trace_of o1) (final_state o2) (trace_of o2));
    vm_compute; reflexivity.
Defined.

(** X6. Re-attaching after a detach restores the attached state: after a
    completed [use_mm(mm)], any [unuse_mm] followed by [use_mm(mm)] ends in
    the very state the first [use_mm] left. *)
Theorem reattach_restores_state hook p q s0 s1 t1 s2 t2 :
  use_mm hook p s0 = Done tt s1 t1 ->
  unuse_mm q s1 = Done tt s2 t2 ->
  exists t3, use_mm hook p s2 = Done tt s1 t3.
Proof.
  intros H1 H2.
  destruct (use_mm_post _ _ _ _ _ H1) as (Hm1 & Ha1 & Hl1 & _).
  destruct (unuse_mm_post _ _ _ _ H2) as (_ & Ha2 & Hl2 & _ & Hh2 & _).
  rewrite Ha1 in Ha2.
  destruct (use_mm_same_completes hook p s2 Hl2 Ha2) as (s3 & t3 & H3).
  exists t3. rewrite H3. f_equal.
  destruct (use_mm_post _ _ _ _ _ H3) as (Hm3 & Ha3 & Hl3 & _).
  destruct (use_mm_same _ _ _ _ _ H3 Ha2) as [Hh3 _].
  destruct s1 as [[? ? ?] ?], s3 as [[? ? ?] ?]. cbn in *. congruence.
Qed.

Lemma reattach_restores_state_witness :
  let o1 := use_mm false (Some 2%positive) kthread in
  let o2 := unuse_mm (Some 2%positive) (final_state o1) in
  exists t3,
    use_mm false (Some 2%positive) (final_state o2)
    = Done tt (final_state o1) t3.
Proof.
  intros o1 o2.
  apply (reattach_restores_state false (Some 2%positive) (Some 2%positive)
           kthread (final_state o1) (trace_of o1) (final_state o2)
           (trace_of o2)); vm_compute; reflexivity.
Defined.

(** X7. The events of a completed [use_mm], in order.  With [active_mm == mm]:
    lock, store to [tsk->mm], membarrier update, [switch_mm(mm, mm)],
    unlock, the platform hook if there is one, [smp_mb].  With
    [active_mm != mm]: lock, [mmgrab(mm)], store to [tsk->active_mm], store
    to [tsk->mm], membarrier update, [switch_mm(active_mm, mm)], unlock,
    the hook, [mmdrop(active_mm)], and the free when that was the last
    reference. *)
Theorem use_mm_order hook p s s' tr :
  use_mm hook p s = Done tt s' tr ->
  let prev := active_mm (current s) in
  let hook_ev := if hook then [EvFinishArchPostLockSwitch] else [] in
  (prev = p ->
   events tr =
     [EvTaskLock; EvStoreMm p; EvMembarrierUpdate p; EvSwitchMm p p;
      EvTaskUnlock] ++ hook_ev ++ [EvSmpMb]) /\
  (prev <> p ->
   exists r,
     prev = Some r /\
     events tr =
       [EvTaskLock; EvMmgrab p; EvStoreActiveMm p; EvStoreMm p;
        EvMembarrierUpdate p; EvSwitchMm prev p; EvTaskUnlock]
       ++ hook_ev ++ EvMmdrop prev
       :: (if decide (refs s r = 1) then [EvFree r] else [])).
Proof.
  intros H. run_use_mm H; cbn [current active_mm]; split; intros E;
    try congruence; try reflexivity.
  all: exists r; split; [done|]; unfold refs; cbn [heap]; rewrite Hq.
  all: case_decide; try lia; reflexivity.
Qed.

Lemma use_mm_order_witness :
  let o := use_mm true (Some 2%positive) kthread in
  events (trace_of o) =
    [EvTaskLock; EvMmgrab (Some 2%positive);
     EvStoreActiveMm (Some 2%positive); EvStoreMm (Some 2%positive);
     EvMembarrierUpdate (Some 2%positive);
     EvSwitchMm (Some 1%positive) (Some 2%positive); EvTaskUnlock;
     EvFinishArchPostLockSwitch; EvMmdrop (Some 1%positive);
     EvFree 1%positive].
Proof.
  intros o.
  destruct (use_mm_order true (Some 2%positive) kthread (final_state o)
              (trace_of o)) as [_ H]; [vm_compute; reflexivity|].
  destruct H as (r & Hr & He); [discriminate|].
  injection Hr as <-. exact He.
Defined.

(** X8. What is done under the lock and what is not: in a completed call the
    task's two pointers are written, [mmgrab] is called and the lazy-TLB
    state is entered only with the lock held; [mmdrop], the free it may
    cause and [smp_mb] come only after the lock has been released. *)
Theorem refcount_calls_and_lock hook c s s' tr :
  do_call hook c s = Done tt s' tr ->
  forall x, In x tr ->
    match fst x with
    | EvMmgrab _ | EvStoreActiveMm _ | EvStoreMm _ | EvSmpMbAfterSpinlock
    | EvEnterLazyTlb _ | EvTaskUnlock => locked_at x = true
    | EvMmdrop _ | EvFree _ | EvSmpMb | EvTaskLock => locked_at x = false
    | _ => True
    end.
Proof.
  destruct c as [p|p]; cbn [do_call]; intros H [e si] Hin.
  - run_use_mm H; each_entry Hin ltac:(exact I || reflexivity).
  - run_unuse_mm H; each_entry Hin ltac:(exact I || reflexivity).
Qed.

Lemma refcount_calls_and_lock_witness :
  let o := do_call true (CallUseMm (Some 2%positive)) kthread in
  let x := nth 8 (trace_of o) (EvTaskLock, kthread) in
  fst x = EvMmdrop (Some 1%positive) /\ locked_at x = false.
Proof.
  intros o x. split; [reflexivity|].
  assert (Hin : In x (trace_of o)) by (vm_compute; solve_in).
  exact (refcount_calls_and_lock true (CallUseMm (Some 2%positive)) kthread
           (final_state o) (trace_of o) eq_refl x Hin).
Defined.

(** X9. When [use_mm] calls [membarrier_update_current_mm] and [switch_mm],
    both [tsk->mm] and [tsk->active_mm] already name [mm], and no reference
    has been given up yet: the count of every space is at least what it was
    at entry, so the space switched away from is still held. *)
Theorem switch_mm_sees_new_fields hook p s s' tr :
  use_mm hook p s = Done tt s' tr ->
  forall e si, In (e, si) tr ->
    e = EvMembarrierUpdate p \/ e = EvSwitchMm (active_mm (current s)) p ->
    mm (current si) = p /\ active_mm (current si) = p /\
    (forall x, refs s x <= refs si x) /\
    (forall r, active_mm (current s) = Some r -> refs si r = refs s r) /\
    (forall m, p = Some m -> active_mm (current s) <> p ->
       refs si m = refs s m + 1).
Proof.
  intros H e si Hin He. run_use_mm H; cbn [current active_mm] in *.
  all: each_entry Hin ltac:(
    first [ by destruct He
          | repeat split; try done;
            [ intros x; refs_solve
            | intros ? [= <-]; refs_solve
            | intros ? [= <-] ?; refs_solve ] ]).
Qed.

Lemma switch_mm_sees_new_fields_witness :
  let o := use_mm true (Some 2%positive) kthread in
  let x := nth 5 (trace_of o) (EvTaskLock, kthread) in
  fst x = EvSwitchMm (Some 1%positive) (Some 2%positive) /\
  mm (current (snd x)) = Some 2%positive /\
  active_mm (current (snd x)) = Some 2%positive /\
  refs (snd x) 1 = refs kthread 1.
Proof.
  intros o x. split; [reflexivity|].
  assert (Hin : In (fst x, snd x) (trace_of o)) by (vm_compute; solve_in).
  destruct (switch_mm_sees_new_fields true (Some 2%positive) kthread
              (final_state o) (trace_of o) eq_refl (fst x) (snd x) Hin)
    as (Hm & Ha & _ & Hr & _); [right; reflexivity|].
  split; [exact Hm|]. split; [exact Ha|]. apply Hr. reflexivity.
Defined.

(** X10. The platform hook changes nothing but its own call: with or without
    [finish_arch_post_lock_switch], [use_mm] completes on the same states and
    leaves the same state, and the events are the same once the hook's own
    event is left out. *)
Theorem arch_hook_only_adds_its_call p s :
  completed (use_mm true p s) = completed (use_mm false p s) /\
  final_state (use_mm true p s) = final_state (use_mm false p s) /\
  filter (fun e => e <> EvFinishArchPostLockSwitch)
         (events (trace_of (use_mm true p s)))
  = events (trace_of (use_mm false p s)) /\
  ~ In EvFinishArchPostLockSwitch (events (trace_of (use_mm false p s))).
Proof.
  destruct s as [[a q l] h]. kstep_goal.
  destruct l; [cbn; intuition discriminate|].
  destruct (decide (q <> p)) as [Hne|Hne].
  - destruct p as [m|]; [|cbn; intuition discriminate].
    destruct (h !! m) as [o|] eqn:Hm; [|cbn; intuition discriminate].
    destruct q as [r|]; [|cbn; intuition discriminate].
    rewrite lookup_insert_ne by congruence.
    destruct (h !! r) as [o'|]; [case_decide|]; cbn; intuition discriminate.
  - cbn; intuition discriminate.
Qed.

(** ** Counts stay well-formed *)






(** X12. A completed [use_mm] frees a space exactly when that space was the old
    [active_mm], differs from [mm] and had the context's as its last
    reference.  The freed space is gone afterwards, and a later [use_mm] on
    it cannot complete.  The space that is attached is never freed. *)
Theorem use_mm_frees_last_reference hook p s s' tr :
  use_mm hook p s = Done tt s' tr ->
  (forall x,
     In (EvFree x) (events tr) <->
     active_mm (current s) = Some x /\ p <> Some x /\ refs s x = 1) /\
  (forall x,
     In (EvFree x) (events tr) ->
     heap s' !! x = None /\
     forall hook', completed (use_mm hook' (Some x) s') = false) /\
  (forall m, p = Some m -> active_mm (current s) <> p ->
     is_Some (heap s' !! m)).
Proof.
  intros H.
  assert (Hfree : forall x,
            In (EvFree x) (events tr) <->
            active_mm (current s) = Some x /\ p <> Some x /\ refs s x = 1).
  { intros x. run_use_mm H; cbn [current active_mm events map fst In].
    all: split;
      [ intros Hin; repeat (destruct Hin as [Hin|Hin]; [try done|]);
        try done; injection Hin as <-;
        repeat split; try done; try congruence; refs_solve
      | intros (E & Hp & Hr); try congruence;
        try (injection E as <-; revert Hr; refs_solve);
        try (revert Hr; refs_solve) ].
    all: try solve_in. }
  split; [exact Hfree|]. split.
  - intros x Hin. apply Hfree in Hin as (Ea & Hp & Hr).
    assert (Hgone : heap s' !! x = None).
    { clear Hfree. run_use_mm H; cbn [current active_mm heap] in *;
        try congruence; injection Ea as <-.
      all: first [ by rewrite lookup_delete_eq
                 | revert Hr; refs_solve ]. }
    split; [exact Hgone|]. intros hook'.
    destruct (use_mm hook' (Some x) s') as [[] s2 t2|] eqn:H2; [|done].
    apply use_mm_done_inv in H2 as [_ [E|(m & r & [= <-] & _ & _ & [o Ho] & _)]].
    + destruct (use_mm_post _ _ _ _ _ H) as (_ & Ha & _). congruence.
    + congruence.
  - intros m' Hp Hne. clear Hfree.
    run_use_mm H; cbn [current active_mm heap] in *; try congruence.
    all: injection Hp as <-.
    all: first [ rewrite lookup_delete_ne by congruence
               | rewrite lookup_insert_ne by congruence ].
    all: rewrite lookup_insert_eq; by eexists.
Qed.

Lemma use_mm_frees_last_reference_witness :
  let o := use_mm true (Some 2%positive) kthread in
  In (EvFree 1%positive) (events (trace_of o)) /\
  heap (final_state o) !! 1%positive = None /\
  completed (use_mm true (Some 1%positive) (final_state o)) = false.
Proof.
  intros o.
  destruct (use_mm_frees_last_reference true (Some 2%positive) kthread
              (final_state o) (trace_of o)) as (Hiff & Hgone & _);
    [vm_compute; reflexivity|].
  assert (Hin : In (EvFree 1%positive) (events (trace_of o))).
  { apply Hiff. split; [reflexivity|]. split; [discriminate|reflexivity]. }
  split; [exact Hin|].
  destruct (Hgone _ Hin) as [Hnone Hbad]. split; [exact Hnone|apply Hbad].
Defined.
